(** * KarmaRex: the subreddit-group database

    A shallow embedding of [KarmaRex/database/subreddits.py] and the
    properties of its class [SubredditGroupDatabase]: the coercion of mixed
    arguments into a set of strings, the repair of the stored document on
    construction, and the getters, setters and adders of the two fields.

    Python values are an inductive type, Python sets are [gset]s, Python
    dictionaries are [gmap]s, and a method is a function in a small monad that
    threads the contents of the database and may raise an exception. *)

From stdpp Require Import gmap strings list fin_maps countable.

#[local] Set Warnings "-clear-no-such-hyp".

(** ** Python values *)

(** The values that reach this module: [None], integers, strings, lists,
    tuples, sets and dictionaries with string keys (the documents of the
    database are JSON).  A set is given by its elements in iteration order.
    Strings are sequences of one-byte characters. *)
Local Unset Elimination Schemes.
Inductive pyval : Type :=
  | PNone
  | PInt (z : Z)
  | PStr (s : string)
  | PList (l : list pyval)
  | PTuple (l : list pyval)
  | PSet (l : list pyval)
  | PDict (d : gmap string pyval).
Local Set Elimination Schemes.

Fixpoint pyval_size (v : pyval) : nat :=
  match v with
  | PList l | PTuple l | PSet l => S (foldr (λ x n, pyval_size x + n) 0 l)
  | PDict d => S (map_fold (λ _ x n, pyval_size x + n) 0 d)
  | _ => 1
  end.

Lemma size_elem_le (f : pyval → nat) (l : list pyval) x :
  x ∈ l → f x ≤ foldr (λ y n, f y + n) 0 l.
Proof.
  induction l as [|y l IH]; intros Hx; [by apply elem_of_nil in Hx|].
  apply elem_of_cons in Hx as [->|Hx]; simpl; [lia|].
  specialize (IH Hx). lia.
Qed.

Lemma size_lookup_le (f : pyval → nat) (d : gmap string pyval) k x :
  d !! k = Some x → f x ≤ map_fold (λ _ y n, f y + n) 0 d.
Proof.
  intros Hk. rewrite map_fold_foldr.
  apply elem_of_map_to_list in Hk.
  induction (map_to_list d) as [|[k' y] l IH]; [by apply elem_of_nil in Hk|].
  apply elem_of_cons in Hk as [Heq|Hk]; simpl.
  - injection Heq as -> ->. lia.
  - specialize (IH Hk). lia.
Qed.

(** Induction over values, with the hypothesis for every element of a
    collection and every entry of a dictionary. *)
Lemma pyval_ind (P : pyval → Prop) :
  P PNone →
  (∀ z, P (PInt z)) →
  (∀ s, P (PStr s)) →
  (∀ l, Forall P l → P (PList l)) →
  (∀ l, Forall P l → P (PTuple l)) →
  (∀ l, Forall P l → P (PSet l)) →
  (∀ d, map_Forall (λ _, P) d → P (PDict d)) →
  ∀ v, P v.
Proof.
  intros Hnone Hint Hstr Hlist Htuple Hset Hdict v.
  remember (pyval_size v) as n eqn:Hn. revert v Hn.
  induction n as [n IH] using lt_wf_ind. intros v ->.
  assert (Hl : ∀ l, foldr (λ x n, pyval_size x + n) 0 l < pyval_size v →
                    Forall P l).
  { intros l Hlt. apply list.Forall_forall. intros x Hx.
    apply (IH (pyval_size x)); [|done].
    pose proof (size_elem_le pyval_size l x Hx). lia. }
  destruct v as [|z|s|l|l|l|d]; simpl in *; auto.
  apply Hdict. intros k x Hk. apply (IH (pyval_size x)); [|done].
  pose proof (size_lookup_le pyval_size d k x Hk). lia.
Qed.

(** Values are countable, so that they can be the elements of a [gset]. *)
Fixpoint pyval_enc (v : pyval) : gen_tree (Z + string) :=
  match v with
  | PNone => GenNode 0 []
  | PInt z => GenLeaf (inl z)
  | PStr s => GenLeaf (inr s)
  | PList l => GenNode 1 (pyval_enc <$> l)
  | PTuple l => GenNode 2 (pyval_enc <$> l)
  | PSet l => GenNode 3 (pyval_enc <$> l)
  | PDict d =>
      GenNode 4 (map_fold (λ k x ts, GenLeaf (inr k) :: pyval_enc x :: ts) [] d)
  end.

Fixpoint pyval_dec_items (dec : gen_tree (Z + string) → pyval)
    (ts : list (gen_tree (Z + string))) : list (string * pyval) :=
  match ts with
  | GenLeaf (inr k) :: t :: ts' => (k, dec t) :: pyval_dec_items dec ts'
  | _ => []
  end.

Fixpoint pyval_dec (t : gen_tree (Z + string)) : pyval :=
  match t with
  | GenLeaf (inl z) => PInt z
  | GenLeaf (inr s) => PStr s
  | GenNode 1 ts => PList (pyval_dec <$> ts)
  | GenNode 2 ts => PTuple (pyval_dec <$> ts)
  | GenNode 3 ts => PSet (pyval_dec <$> ts)
  | GenNode 4 ts => PDict (list_to_map (pyval_dec_items pyval_dec ts))
  | GenNode _ _ => PNone
  end.

Lemma pyval_dec_items_enc (L : list (string * pyval)) :
  Forall (λ kx, pyval_dec (pyval_enc kx.2) = kx.2) L →
  pyval_dec_items pyval_dec
    (foldr (uncurry (λ k x ts, GenLeaf (inr k) :: pyval_enc x :: ts)) [] L) = L.
Proof.
  induction 1 as [|[k x] L Hx _ IH]; simpl in *; [done|].
  by rewrite Hx, IH.
Qed.

Lemma pyval_dec_list_enc (l : list pyval) :
  Forall (λ x, pyval_dec (pyval_enc x) = x) l →
  pyval_dec <$> (pyval_enc <$> l) = l.
Proof. induction 1 as [|x l Hx _ IH]; csimpl; [done|by rewrite Hx, IH]. Qed.

Lemma pyval_dec_enc v : pyval_dec (pyval_enc v) = v.
Proof.
  induction v as [|z|s|l IH|l IH|l IH|d IH] using pyval_ind; simpl; try done.
  1-3: by rewrite pyval_dec_list_enc.
  f_equal. rewrite map_fold_foldr, pyval_dec_items_enc.
  - apply list_to_map_to_list.
  - apply list.Forall_forall. intros [k x] Hkx. simpl.
    apply elem_of_map_to_list in Hkx. by apply (IH k).
Qed.

Global Instance pyval_eq_dec : EqDecision pyval.
Proof.
  intros v w. destruct (decide (pyval_enc v = pyval_enc w)) as [Heq|Hne].
  - left. by rewrite <-(pyval_dec_enc v), <-(pyval_dec_enc w), Heq.
  - right. by intros ->.
Defined.

Global Instance pyval_countable : Countable pyval :=
  inj_countable' pyval_enc pyval_dec pyval_dec_enc.

Global Instance PStr_inj : Inj (=) (=) PStr.
Proof. by intros s1 s2 [= ->]. Qed.

(** ** The built-ins the module uses *)

(** [isinstance(v, str)] and [isinstance(v, dict)]. *)
Definition isinstance_str (v : pyval) : bool :=
  match v with PStr _ => true | _ => false end.

Definition isinstance_dict (v : pyval) : bool :=
  match v with PDict _ => true | _ => false end.

(** A value can be a member of a set when it is hashable: [None], integers,
    strings, and tuples of hashable values.  On these values Python's [==]
    is structural equality. *)
Fixpoint hashable (v : pyval) : bool :=
  match v with
  | PNone | PInt _ | PStr _ => true
  | PTuple l => forallb hashable l
  | PList _ | PSet _ | PDict _ => false
  end.

(** The characters of a string, each as a string of length one. *)
Fixpoint str_chars (s : string) : list string :=
  match s with
  | EmptyString => []
  | String c s' => String c EmptyString :: str_chars s'
  end.

(** The only exception this module meets. *)
Inductive pyexn : Type := TypeError.

Inductive pyresult (A : Type) : Type :=
  | Ok (a : A)
  | Raise (e : pyexn).
Arguments Ok {A} a.
Arguments Raise {A} e.

(** [set(v)]: the set of the items of an iterable; [TypeError] when [v] is
    not iterable or one of its items is not hashable.  Iterating a string
    yields its characters, iterating a dictionary its keys. *)
Definition py_set (v : pyval) : pyresult (gset pyval) :=
  match v with
  | PList l | PTuple l | PSet l =>
      if forallb hashable l then Ok (list_to_set l) else Raise TypeError
  | PStr s => Ok (list_to_set (PStr <$> str_chars s))
  | PDict d => Ok (set_map PStr (dom d))
  | PNone | PInt _ => Raise TypeError
  end.

(** A set of strings as a Python set of values. *)
Definition py_strs (X : gset string) : gset pyval := set_map PStr X.

(** [list(X)] for a set of strings.  Python promises no order; the order of
    [elements] stands for whichever order the conversion yields. *)
Definition py_list (X : gset string) : pyval := PList (PStr <$> elements X).

(** A Python set as a value. *)
Definition py_set_val (X : gset pyval) : pyval := PSet (elements X).

(** ** Methods: the state of the database and exceptions *)

(** A method runs on the contents of the database (the root document) and
    yields a result or an exception, and the contents afterwards. *)
Definition Py (A : Type) : Type := pyval → pyresult A * pyval.

Definition py_ret {A} (a : A) : Py A := λ st, (Ok a, st).

Definition py_bind {A B} (k : A → Py B) (m : Py A) : Py B :=
  λ st, match m st with
        | (Ok a, st') => k a st'
        | (Raise e, st') => (Raise e, st')
        end.

Definition py_raise {A} (e : pyexn) : Py A := λ st, (Raise e, st).

Definition py_lift {A} (r : pyresult A) : Py A := λ st, (r, st).

Global Instance Py_ret : MRet Py := @py_ret.
Global Instance Py_bind : MBind Py := @py_bind.

(** ** The database *)

(** Modelled from the spec: the key-value store of [database/database.py]
    (the classes [Database] and [UsingDatabase]), which is not among the
    sources.  The spec describes it as "a path-addressed accessor yielding a
    handle supporting get() -> value-or-default and set(value), where a path
    is a sequence of string segments", and addresses a field of a group by
    the path of the group's document followed by the key of the field.  So
    the contents are one document, a path walks down nested mappings, [get]
    yields [None] where the path holds no value, and [set] stores the value
    at the path, creating the mappings on the way. *)
Module Database.

Record DatabaseAccess : Type := { path : list string }.

Fixpoint db_lookup (p : list string) (v : pyval) : option pyval :=
  match p with
  | [] => Some v
  | k :: p' =>
      match v with
      | PDict d => d !! k ≫= db_lookup p'
      | _ => None
      end
  end.

Definition db_get (p : list string) (v : pyval) : pyval :=
  default PNone (db_lookup p v).

Fixpoint db_set (p : list string) (x : pyval) (v : pyval) : pyval :=
  match p with
  | [] => x
  | k :: p' =>
      let d := match v with PDict d => d | _ => ∅ end in
      PDict (<[k := db_set p' x (default PNone (d !! k))]> d)
  end.

Definition get (db : DatabaseAccess) : Py pyval :=
  λ st, (Ok (db_get (path db) st), st).

Definition set (db : DatabaseAccess) (value : pyval) : Py unit :=
  λ st, (Ok (), db_set (path db) value st).

(** [UsingDatabase._access_db]: the handle of a path. *)
Definition access_db (p : list string) : DatabaseAccess := {| path := p |}.

End Database.

(** ** The class [SubredditGroupDatabase] *)

Module SubredditGroupDatabase.

Definition SUBREDDITS_LIST_KEY : string := "subreddits".
Definition COMMENTS_LIST_KEY : string := "comments".

(** The default structure of a group's document, in the order the dictionary
    literal lists its keys. *)
Definition DEFAULT_SUBREDDIT_GROUP_DB_STRUCTURE : list (string * pyval) :=
  [ (SUBREDDITS_LIST_KEY, PList []); (COMMENTS_LIST_KEY, PList []) ].

(** An instance holds the name of its group; the database it refers to is
    the state of the methods. *)
Record t : Type := { name : string }.

Definition access_db (self : t) (args : list string) : Database.DatabaseAccess :=
  Database.access_db ("subreddits" :: "groups" :: name self :: args).

Definition normalize_database (self : t) : Py unit :=
  let db := access_db self [] in
  db_data ← Database.get db;
  let db_data := match db_data with PDict d => d | _ => ∅ end in
  let db_data :=
    foldl (λ (db_data : gmap string pyval) '(key, value),
             match db_data !! key with
             | None => <[key := value]> db_data
             | Some _ => db_data
             end)
          db_data DEFAULT_SUBREDDIT_GROUP_DB_STRUCTURE in
  Database.set db (PDict db_data).

Definition init (group_name : string) : Py t :=
  let self := {| name := group_name |} in
  normalize_database self ;; mret self.

Fixpoint normalize_str_args (item : pyval) : gset string :=
  match item with
  | PStr s => {[ s ]}
  | PList l | PSet l | PTuple l =>
      foldl (λ final_set list_item,
               final_set ∪ normalize_str_args list_item) ∅ l
  | _ => ∅
  end.

(** - - subreddits - - *)

Definition set_subreddits (self : t) (args : list pyval) : Py unit :=
  Database.set (access_db self [SUBREDDITS_LIST_KEY])
    (py_list (normalize_str_args (PTuple args))).

Definition subreddits (self : t) : Py (gset pyval) :=
  v ← Database.get (access_db self [SUBREDDITS_LIST_KEY]);
  py_lift (py_set v).

Definition add_subreddits (self : t) (args : list pyval) : Py unit :=
  current ← subreddits self;
  set_subreddits self
    [py_set_val (current ∪ py_strs (normalize_str_args (PTuple args)))].

Definition add_subreddit (self : t) (subreddit_name : pyval) : Py unit :=
  if negb (isinstance_str subreddit_name) then py_raise TypeError
  else add_subreddits self [subreddit_name].

(** - - comments - - *)

Definition set_comments (self : t) (args : list pyval) : Py unit :=
  Database.set (access_db self [COMMENTS_LIST_KEY])
    (py_list (normalize_str_args (PTuple args))).

Definition comments (self : t) : Py (gset pyval) :=
  v ← Database.get (access_db self [COMMENTS_LIST_KEY]);
  py_lift (py_set v).

Definition add_comments (self : t) (args : list pyval) : Py unit :=
  current ← comments self;
  set_comments self
    [py_set_val (current ∪ py_strs (normalize_str_args (PTuple args)))].

Definition add_comment (self : t) (comment : pyval) : Py unit :=
  if negb (isinstance_str comment) then py_raise TypeError
  else add_comments self [comment].

End SubredditGroupDatabase.

Import Database SubredditGroupDatabase.

(** ** Vocabulary of the specification *)

(** The leaves of a nested argument: what remains when lists, tuples and sets
    are flattened, from left to right. *)
Fixpoint leaves (v : pyval) : list pyval :=
  match v with
  | PList l | PTuple l | PSet l => l ≫= leaves
  | _ => [v]
  end.

Definition as_str (v : pyval) : option string :=
  match v with PStr s => Some s | _ => None end.

(** The flat set of the string leaves. *)
Definition str_leaves (v : pyval) : gset string :=
  list_to_set (omap as_str (leaves v)).


(** The path of a group's document and of a field in it. *)
Definition group_path (group_name : string) : list string :=
  ["subreddits"; "groups"; group_name].

Definition field_path (group_name key : string) : list string :=
  group_path group_name ++ [key].

(** Shape repair in the words of the specification: start from the stored
    mapping, or from an empty mapping if the document is absent or not a
    mapping, and set each of the two expected fields that is not present to
    an empty sequence. *)
Definition fill_missing (key : string) (d : gmap string pyval) :
    gmap string pyval :=
  if decide (is_Some (d !! key)) then d else <[key := PList []]> d.

Definition repair_spec (doc : option pyval) : gmap string pyval :=
  let d := match doc with Some (PDict d) => d | _ => ∅ end in
  fill_missing "comments" (fill_missing "subreddits" d).

(** A sequence of strings. *)
Definition is_str_seq (v : pyval) : bool :=
  match v with
  | PList l => forallb isinstance_str l
  | _ => false
  end.

(** The store-shape invariant of a group: its document is a mapping with both
    fields, each a sequence of strings. *)
Definition shape_ok (self : t) (st : pyval) : bool :=
  match db_get (path (access_db self [])) st with
  | PDict d =>
      match d !! SUBREDDITS_LIST_KEY, d !! COMMENTS_LIST_KEY with
      | Some a, Some b => is_str_seq a && is_str_seq b
      | _, _ => false
      end
  | _ => false
  end.

(** Both fields are present in the group's document. *)
Definition fields_present (self : t) (st : pyval) : bool :=
  match db_get (path (access_db self [])) st with
  | PDict d =>
      bool_decide (is_Some (d !! SUBREDDITS_LIST_KEY))
      && bool_decide (is_Some (d !! COMMENTS_LIST_KEY))
  | _ => false
  end.

(** What construction needs to find for the invariant to hold afterwards:
    every expected field that the stored mapping already has is a sequence of
    strings (an absent document, or one that is not a mapping, is fine). *)
Definition present_fields_ok (group_name : string) (st : pyval) : bool :=
  match db_get (group_path group_name) st with
  | PDict d =>
      from_option is_str_seq true (d !! SUBREDDITS_LIST_KEY)
      && from_option is_str_seq true (d !! COMMENTS_LIST_KEY)
  | _ => true
  end.

(** Two paths part ways: after a common prefix they continue with different
    segments. *)
Definition diverge (p q : list string) : Prop :=
  ∃ r k1 k2 p' q', k1 ≠ k2 ∧ p = r ++ k1 :: p' ∧ q = r ++ k2 :: q'.

(** ** The coercion [normalize_str_args] *)

Lemma foldl_union_acc {A} (f : A → gset string) (l : list A) (X : gset string) :
  foldl (λ acc x, acc ∪ f x) X l = X ∪ ⋃ (f <$> l).
Proof.
  revert X. induction l as [|x l IH]; intros X; csimpl.
  - set_solver.
  - rewrite IH. set_solver.
Qed.

Lemma normalize_str_args_unfold item :
  normalize_str_args item =
    match item with
    | PStr s => {[ s ]}
    | PList l | PSet l | PTuple l => ⋃ (normalize_str_args <$> l)
    | _ => ∅
    end.
Proof.
  destruct item as [|z|s|l|l|l|d]; simpl; try done.
  all: rewrite foldl_union_acc; set_solver.
Qed.

Lemma str_leaves_collection (l : list pyval) :
  list_to_set (omap as_str (l ≫= leaves)) =@{gset string} ⋃ (str_leaves <$> l).
Proof.
  induction l as [|x l IH]; csimpl; [done|].
  rewrite omap_app, list_to_set_app_L, IH. done.
Qed.

Lemma normalize_str_args_leaves item :
  normalize_str_args item = str_leaves item.
Proof.
  induction item as [|z|s|l IH|l IH|l IH|d IH] using pyval_ind;
    rewrite normalize_str_args_unfold; unfold str_leaves; simpl;
    try set_solver.
  all: rewrite str_leaves_collection; f_equal;
    induction IH as [|x l Hx _ IHl]; csimpl; [done|by rewrite Hx, IHl].
Qed.

(** ** The database: reading after writing *)

Lemma db_lookup_app p q v :
  db_lookup (p ++ q) v = db_lookup p v ≫= db_lookup q.
Proof.
  revert v. induction p as [|k p IH]; intros v; simpl; [done|].
  destruct v as [| | | | | |d]; try done.
  destruct (d !! k) as [c|]; simpl; [apply IH|done].
Qed.

Lemma db_lookup_set_same p x v : db_lookup p (db_set p x v) = Some x.
Proof.
  revert v. induction p as [|k p IH]; intros v; simpl; [done|].
  rewrite lookup_insert_eq. simpl. apply IH.
Qed.

Lemma db_get_set_same p x v : db_get p (db_set p x v) = x.
Proof. unfold db_get. by rewrite db_lookup_set_same. Qed.

Lemma db_get_cons k p v :
  db_get (k :: p) v =
    db_get p (default PNone (match v with PDict d => d | _ => ∅ end !! k)).
Proof.
  unfold db_get. simpl. destruct v as [| | | | | |d]; simpl;
    try (rewrite lookup_empty; by destruct p).
  destruct (d !! k); simpl; [done|by destruct p].
Qed.

Lemma db_set_app p q x v :
  db_set (p ++ q) x v = db_set p (db_set q x (db_get p v)) v.
Proof.
  revert v. induction p as [|k p IH]; intros v; simpl; [done|].
  by rewrite IH, db_get_cons.
Qed.

Lemma db_get_set_app p q x v :
  db_get p (db_set (p ++ q) x v) = db_set q x (db_get p v).
Proof. by rewrite db_set_app, db_get_set_same. Qed.

Lemma db_lookup_set_diverge_head k1 k2 p q x v :
  k1 ≠ k2 →
  db_lookup (k2 :: q) (db_set (k1 :: p) x v) = db_lookup (k2 :: q) v.
Proof.
  intros Hne. simpl. rewrite lookup_insert_ne by done.
  destruct v as [| | | | | |d]; try by rewrite lookup_empty.
  done.
Qed.

Lemma db_lookup_set_diverge p q x v :
  diverge p q → db_lookup q (db_set p x v) = db_lookup q v.
Proof.
  intros (r & k1 & k2 & p' & q' & Hne & -> & ->).
  revert v. induction r as [|k r IH]; intros v.
  - by apply db_lookup_set_diverge_head.
  - simpl. rewrite lookup_insert_eq. simpl. rewrite IH.
    destruct v as [| | | | | |d]; try (rewrite lookup_empty; simpl);
      try (by destruct r).
    destruct (d !! k); simpl; [done|by destruct r].
Qed.

Lemma db_get_set_diverge p q x v :
  diverge p q → db_get q (db_set p x v) = db_get q v.
Proof. intros Hd. unfold db_get. by rewrite db_lookup_set_diverge. Qed.

Lemma diverge_last r k1 k2 : k1 ≠ k2 → diverge (r ++ [k1]) (r ++ [k2]).
Proof. intros Hne. by exists r, k1, k2, [], []. Qed.

Lemma diverge_group name1 name2 key q :
  name1 ≠ name2 → diverge (field_path name1 key) (group_path name2 ++ q).
Proof.
  intros Hne. by exists ["subreddits"; "groups"], name1, name2, [key], q.
Qed.

(** ** The methods, run on a state *)

Arguments db_lookup : simpl never.
Arguments db_get : simpl never.
Arguments db_set : simpl never.

Lemma fill_missing_lookup key d k :
  fill_missing key d !! k =
    match d !! k with
    | Some v => Some v
    | None => if decide (k = key) then Some (PList []) else None
    end.
Proof.
  unfold fill_missing. destruct (decide (is_Some (d !! key))) as [[v Hv]|Hn].
  - destruct (d !! k) eqn:Hk; [done|]. case_decide; [congruence|done].
  - rewrite lookup_insert. case_decide as Hkk.
    + subst k. rewrite decide_True by done.
      destruct (d !! key) eqn:Hk; [|done]. destruct Hn; eauto.
    + rewrite decide_False by done. by destruct (d !! k).
Qed.

(** The loop over the default structure fills the missing fields. *)
Lemma repair_loop (d : gmap string pyval) :
  foldl (λ (db_data : gmap string pyval) '(key, value),
           match db_data !! key with
           | None => <[key := value]> db_data
           | Some _ => db_data
           end)
        d DEFAULT_SUBREDDIT_GROUP_DB_STRUCTURE
  = fill_missing "comments" (fill_missing "subreddits" d).
Proof.
  unfold DEFAULT_SUBREDDIT_GROUP_DB_STRUCTURE, SUBREDDITS_LIST_KEY,
    COMMENTS_LIST_KEY. simpl.
  assert (Hstep : ∀ key (m : gmap string pyval),
    match m !! key with None => <[key := PList []]> m | Some _ => m end
    = fill_missing key m).
  { intros key m. unfold fill_missing. destruct (m !! key) eqn:Hk.
    - by rewrite decide_True by eauto.
    - rewrite decide_False; [done|]. by intros [? ?]. }
  by rewrite !Hstep.
Qed.

Lemma normalize_database_run self st :
  normalize_database self st =
    (Ok (), db_set (group_path (name self))
              (PDict (repair_spec (db_lookup (group_path (name self)) st))) st).
Proof.
  unfold normalize_database, mbind, Py_bind, py_bind, get, set.
  cbn [access_db Database.access_db path app].
  fold (group_path (name self)). rewrite repair_loop.
  do 3 f_equal. unfold repair_spec, db_get.
  by destruct (db_lookup (group_path (name self)) st) as [[| | | | | |d]|].
Qed.

Lemma init_run group_name st :
  init group_name st =
    (Ok {| name := group_name |},
     db_set (group_path group_name)
       (PDict (repair_spec (db_lookup (group_path group_name) st))) st).
Proof.
  unfold init, mbind, Py_bind, py_bind. by rewrite normalize_database_run.
Qed.

(** The two fields have the same four methods up to the key; the lemmas are
    proved once, for the method of a field given by its key. *)
Section field.
Variable key : string.

Definition field_set (self : t) (args : list pyval) : Py unit :=
  Database.set (access_db self [key])
    (py_list (normalize_str_args (PTuple args))).

Definition field_get (self : t) : Py (gset pyval) :=
  v ← Database.get (access_db self [key]);
  py_lift (py_set v).

Definition field_add (self : t) (args : list pyval) : Py unit :=
  current ← field_get self;
  field_set self
    [py_set_val (current ∪ py_strs (normalize_str_args (PTuple args)))].

Definition field_add_single (self : t) (value : pyval) : Py unit :=
  if negb (isinstance_str value) then py_raise TypeError
  else field_add self [value].
End field.

Lemma subreddits_methods :
  set_subreddits = field_set SUBREDDITS_LIST_KEY
  ∧ subreddits = field_get SUBREDDITS_LIST_KEY
  ∧ add_subreddits = field_add SUBREDDITS_LIST_KEY
  ∧ add_subreddit = field_add_single SUBREDDITS_LIST_KEY.
Proof. done. Qed.

Lemma comments_methods :
  set_comments = field_set COMMENTS_LIST_KEY
  ∧ comments = field_get COMMENTS_LIST_KEY
  ∧ add_comments = field_add COMMENTS_LIST_KEY
  ∧ add_comment = field_add_single COMMENTS_LIST_KEY.
Proof. done. Qed.

(** Rewrites the methods of both fields into those of a field by key. *)
Ltac by_key :=
  change set_subreddits with (field_set SUBREDDITS_LIST_KEY) in *;
  change subreddits with (field_get SUBREDDITS_LIST_KEY) in *;
  change add_subreddits with (field_add SUBREDDITS_LIST_KEY) in *;
  change add_subreddit with (field_add_single SUBREDDITS_LIST_KEY) in *;
  change set_comments with (field_set COMMENTS_LIST_KEY) in *;
  change comments with (field_get COMMENTS_LIST_KEY) in *;
  change add_comments with (field_add COMMENTS_LIST_KEY) in *;
  change add_comment with (field_add_single COMMENTS_LIST_KEY) in *.

(** The strings that flattening the members of a Python set yields. *)
Definition flat_strs (Y : gset pyval) : gset string :=
  str_leaves (py_set_val Y).

Lemma field_set_run key self args st :
  field_set key self args st =
    (Ok (), db_set (field_path (name self) key)
              (py_list (str_leaves (PTuple args))) st).
Proof. unfold field_set, set. by rewrite normalize_str_args_leaves. Qed.

Lemma field_get_run key self st :
  field_get key self st = (py_set (db_get (field_path (name self) key) st), st).
Proof. done. Qed.

Lemma str_leaves_tuple_singleton v : str_leaves (PTuple [v]) = str_leaves v.
Proof. unfold str_leaves. simpl. by rewrite app_nil_r. Qed.

Lemma elem_of_flat_strs (Y : gset pyval) s :
  s ∈ flat_strs Y ↔ ∃ v, v ∈ Y ∧ s ∈ str_leaves v.
Proof.
  unfold flat_strs, py_set_val, str_leaves at 1. simpl.
  rewrite str_leaves_collection, elem_of_union_list. split.
  - intros (X & HX & Hs). apply list_elem_of_fmap in HX as (v & -> & Hv).
    exists v. split; [by apply elem_of_elements|done].
  - intros (v & Hv & Hs). exists (str_leaves v). split; [|done].
    apply list_elem_of_fmap. exists v. split; [done|by apply elem_of_elements].
Qed.

Lemma flat_strs_union (Y Z : gset pyval) :
  flat_strs (Y ∪ Z) = flat_strs Y ∪ flat_strs Z.
Proof.
  apply set_eq. intros s.
  rewrite elem_of_union, !elem_of_flat_strs. set_solver.
Qed.

Lemma flat_strs_py_strs (N : gset string) : flat_strs (py_strs N) = N.
Proof.
  apply set_eq. intros s. rewrite elem_of_flat_strs. unfold py_strs. split.
  - intros (v & Hv & Hs). apply elem_of_map in Hv as (s' & -> & Hs').
    unfold str_leaves in Hs. simpl in Hs. set_solver.
  - intros Hs. exists (PStr s). split; [by apply elem_of_map_2|].
    unfold str_leaves. simpl. set_solver.
Qed.

Lemma field_add_run key self args st :
  field_add key self args st =
    match py_set (db_get (field_path (name self) key) st) with
    | Ok Y =>
        (Ok (), db_set (field_path (name self) key)
                  (py_list (flat_strs Y ∪ str_leaves (PTuple args))) st)
    | Raise e => (Raise e, st)
    end.
Proof.
  unfold field_add, mbind, Py_bind, py_bind. rewrite field_get_run.
  destruct (py_set _) as [Y|e]; [|done].
  rewrite field_set_run, str_leaves_tuple_singleton.
  fold (flat_strs (Y ∪ py_strs (normalize_str_args (PTuple args)))).
  by rewrite flat_strs_union, flat_strs_py_strs, normalize_str_args_leaves.
Qed.

Lemma py_set_py_list (N : gset string) : py_set (py_list N) = Ok (py_strs N).
Proof.
  unfold py_list, py_set.
  assert (forallb hashable (PStr <$> elements N) = true) as ->; [|done].
  apply forallb_forall. intros v Hv. apply list_elem_of_In in Hv.
  by apply list_elem_of_fmap in Hv as (s & -> & _).
Qed.


Lemma py_set_str_list (ls : list string) :
  py_set (PList (PStr <$> ls)) = Ok (py_strs (list_to_set ls)).
Proof.
  unfold py_set.
  assert (forallb hashable (PStr <$> ls) = true) as ->.
  { apply forallb_forall. intros v Hv. apply list_elem_of_In in Hv.
    by apply list_elem_of_fmap in Hv as (s & -> & _). }
  f_equal. unfold py_strs. apply set_eq. intros v.
  rewrite elem_of_list_to_set, list_elem_of_fmap, elem_of_map.
  by setoid_rewrite elem_of_list_to_set.
Qed.

(** ** Properties of the coercion *)



Lemma normalize_str_args_str_set (ls : list string) :
  normalize_str_args (PSet (PStr <$> ls)) = list_to_set ls.
Proof.
  rewrite normalize_str_args_unfold.
  induction ls as [|s ls IH]; csimpl; [done|]. by rewrite IH.
Qed.

Lemma normalize_str_args_singleton v :
  normalize_str_args (PList [v]) = normalize_str_args v
  ∧ normalize_str_args (PTuple [v]) = normalize_str_args v
  ∧ normalize_str_args (PSet [v]) = normalize_str_args v.
Proof.
  rewrite (normalize_str_args_unfold (PList _)),
    (normalize_str_args_unfold (PTuple _)),
    (normalize_str_args_unfold (PSet _)).
  csimpl. set_solver.
Qed.

(** C9: normalizing a collection whose single element is the set
    [normalize_str_args x] gives [normalize_str_args x] again.  The set is
    given by any listing [ls] of its members; the collection is a list, a
    tuple or a set. *)
Theorem normalize_str_args_idempotent (x : pyval) (ls : list string) :
  list_to_set ls = normalize_str_args x →
  normalize_str_args (PList [PSet (PStr <$> ls)]) = normalize_str_args x
  ∧ normalize_str_args (PTuple [PSet (PStr <$> ls)]) = normalize_str_args x
  ∧ normalize_str_args (PSet [PSet (PStr <$> ls)]) = normalize_str_args x.
Proof.
  intros Hls.
  destruct (normalize_str_args_singleton (PSet (PStr <$> ls)))
    as (-> & -> & ->).
  by rewrite normalize_str_args_str_set.
Qed.

Lemma normalize_str_args_idempotent_witness :
  let x := PList [PStr "a"; PInt 1; PTuple [PStr "b"; PNone]] in
  normalize_str_args (PList [PSet (PStr <$> ["b"; "a"])]) = normalize_str_args x
  ∧ normalize_str_args (PTuple [PSet (PStr <$> ["b"; "a"])]) = normalize_str_args x
  ∧ normalize_str_args (PSet [PSet (PStr <$> ["b"; "a"])]) = normalize_str_args x.
Proof.
  apply (normalize_str_args_idempotent
           (PList [PStr "a"; PInt 1; PTuple [PStr "b"; PNone]]) ["b"; "a"]).
  vm_compute. reflexivity.
Defined.

(** ** Setting and getting a field *)

Lemma field_get_set key self args st :
  field_get key self (field_set key self args st).2 =
    (Ok (py_strs (str_leaves (PTuple args))), (field_set key self args st).2).
Proof.
  rewrite field_set_run. simpl. rewrite field_get_run.
  by rewrite db_get_set_same, py_set_py_list.
Qed.

Lemma field_set_ok key self args st : (field_set key self args st).1 = Ok ().
Proof. by rewrite field_set_run. Qed.

(** C1: after [set_subreddits] (or [set_comments]) with any arguments, the
    getter of the field returns exactly the flat set of the string leaves of
    the arguments, whatever the database held before: duplicates collapse,
    nesting flattens, and nothing of the previous contents of the field
    survives. *)
Theorem set_then_get_round_trip (self : t) (args : list pyval) (st : pyval) :
  (set_subreddits self args st).1 = Ok ()
  ∧ subreddits self (set_subreddits self args st).2
    = (Ok (py_strs (str_leaves (PTuple args))), (set_subreddits self args st).2)
  ∧ (set_comments self args st).1 = Ok ()
  ∧ comments self (set_comments self args st).2
    = (Ok (py_strs (str_leaves (PTuple args))), (set_comments self args st).2).
Proof.
  by_key. by rewrite !field_set_ok, !field_get_set.
Qed.

(** The example of the specification:
    [set_feeds("a", ["b", "c"], {"c", "d"})], then [get_feeds()]. *)
Example set_feeds_example (self : t) (st : pyval) :
  let args := [PStr "a"; PList [PStr "b"; PStr "c"]; PSet [PStr "c"; PStr "d"]] in
  (subreddits self (set_subreddits self args st).2).1
  = Ok (py_strs {[ "a"; "b"; "c"; "d" ]}).
Proof.
  intros args. by_key.
  assert (str_leaves (PTuple args) = {[ "a"; "b"; "c"; "d" ]}) as Hl
    by (unfold str_leaves; simpl; set_solver).
  by rewrite field_get_set, Hl.
Qed.

(** ** Non-string leaves *)

(** The arguments with everything but the string leaves removed: the flat
    list of the string leaves. *)
Definition only_str_leaves (args : list pyval) : list pyval :=
  PStr <$> omap as_str (leaves (PTuple args)).

Lemma str_leaves_of_str_list (ls : list string) :
  ⋃ (str_leaves <$> (PStr <$> ls)) =@{gset string} list_to_set ls.
Proof.
  induction ls as [|s ls IH]; csimpl; [done|].
  rewrite IH. unfold str_leaves. simpl. set_solver.
Qed.

Lemma str_leaves_only_str_leaves args :
  str_leaves (PTuple (only_str_leaves args)) = str_leaves (PTuple args).
Proof.
  unfold only_str_leaves, str_leaves at 1. simpl.
  rewrite str_leaves_collection, str_leaves_of_str_list. done.
Qed.

Lemma field_set_only_str_leaves key self args st :
  field_set key self (only_str_leaves args) st = field_set key self args st.
Proof. by rewrite !field_set_run, str_leaves_only_str_leaves. Qed.



(** The example of the specification:
    [set_comments("ok", 5, None, ["also_ok", 7])], then [get_comments()]. *)
Example set_comments_example (self : t) (st : pyval) :
  let args := [PStr "ok"; PInt 5; PNone; PList [PStr "also_ok"; PInt 7]] in
  set_comments self args st = set_comments self [PStr "ok"; PStr "also_ok"] st
  ∧ (comments self (set_comments self args st).2).1
    = Ok (py_strs {[ "ok"; "also_ok" ]}).
Proof.
  intros args. by_key. split.
  - by rewrite <-(field_set_only_str_leaves _ _ args).
  - assert (str_leaves (PTuple args) = {[ "ok"; "also_ok" ]}) as Hl
      by (unfold str_leaves; simpl; set_solver).
    by rewrite field_get_set, Hl.
Qed.

(** ** Construction: shape repair *)

Lemma init_doc group_name st :
  db_lookup (group_path group_name) (init group_name st).2
  = Some (PDict (repair_spec (db_lookup (group_path group_name) st))).
Proof. rewrite init_run. simpl. by rewrite db_lookup_set_same. Qed.

Lemma repair_spec_lookup doc k :
  repair_spec doc !! k =
    match match doc with Some (PDict d) => d | _ => ∅ end !! k with
    | Some v => Some v
    | None =>
        if bool_decide (k ∈ [SUBREDDITS_LIST_KEY; COMMENTS_LIST_KEY])
        then Some (PList []) else None
    end.
Proof.
  unfold repair_spec. rewrite !fill_missing_lookup.
  destruct (_ !! k) as [v|]; [done|].
  unfold SUBREDDITS_LIST_KEY, COMMENTS_LIST_KEY.
  destruct (decide (k = "subreddits")) as [->|Hs].
  - by rewrite bool_decide_eq_true_2 by set_solver.
  - destruct (decide (k = "comments")) as [->|Hc].
    + by rewrite bool_decide_eq_true_2 by set_solver.
    + by rewrite bool_decide_eq_false_2 by set_solver.
Qed.

Lemma repair_spec_fresh doc :
  (∀ d, doc ≠ Some (PDict d)) →
  repair_spec doc = {[ "subreddits" := PList []; "comments" := PList [] ]}.
Proof.
  intros Hdoc. apply map_eq. intros k. rewrite repair_spec_lookup.
  assert (match doc with Some (PDict d) => d | _ => ∅ end = ∅) as ->.
  { destruct doc as [[| | | | | |d]|]; try done. by destruct (Hdoc d). }
  rewrite lookup_empty. unfold SUBREDDITS_LIST_KEY, COMMENTS_LIST_KEY.
  destruct (decide (k = "subreddits")) as [->|Hs].
  { by rewrite bool_decide_eq_true_2 by set_solver. }
  rewrite lookup_insert_ne by done.
  destruct (decide (k = "comments")) as [->|Hc].
  { rewrite bool_decide_eq_true_2 by set_solver.
    by rewrite lookup_singleton_eq. }
  rewrite bool_decide_eq_false_2 by set_solver.
  by rewrite lookup_singleton_ne.
Qed.

Lemma db_get_field group_name key st :
  db_get (field_path group_name key) st =
    match db_get (group_path group_name) st with
    | PDict d => default PNone (d !! key)
    | _ => PNone
    end.
Proof.
  unfold db_get, field_path. rewrite db_lookup_app.
  destruct (db_lookup (group_path group_name) st) as [doc|]; [|done].
  simpl. unfold db_lookup. destruct doc as [| | | | | |d]; try done.
  by destruct (d !! key).
Qed.

Lemma init_field group_name key st :
  db_get (field_path group_name key) (init group_name st).2
  = default PNone
      (repair_spec (db_lookup (group_path group_name) st) !! key).
Proof. rewrite db_get_field. unfold db_get. by rewrite init_doc. Qed.

(** C3: construction reads the document of the group, starts from an empty
    mapping if it is absent or not a mapping, sets each of the two expected
    fields that is missing to an empty sequence, and writes the result back
    in every case.  A stored value that is not a mapping is replaced by the
    mapping with the two empty fields, and for a group that was absent both
    getters return the empty set right after construction. *)
Theorem init_repairs_shape (group_name : string) (st : pyval) :
  let self := {| name := group_name |} in
  let doc := db_lookup (group_path group_name) st in
  let st' := (init group_name st).2 in
  (init group_name st).1 = Ok self
  ∧ st' = db_set (group_path group_name) (PDict (repair_spec doc)) st
  ∧ db_lookup (group_path group_name) st' = Some (PDict (repair_spec doc))
  ∧ (isinstance_dict (db_get (group_path group_name) st) = false →
     db_lookup (group_path group_name) st'
     = Some (PDict {[ "subreddits" := PList []; "comments" := PList [] ]}))
  ∧ (doc = None →
     subreddits self st' = (Ok ∅, st') ∧ comments self st' = (Ok ∅, st')).
Proof.
  intros self doc st'. subst st'. rewrite init_doc. fold doc.
  split; [by rewrite init_run|]. split; [by rewrite init_run|].
  split; [done|].
  assert (Hfresh : isinstance_dict (db_get (group_path group_name) st) = false
                   → ∀ d, doc ≠ Some (PDict d)).
  { unfold db_get. fold doc. by intros Hd d ->. }
  split.
  - intros Hd. by rewrite repair_spec_fresh by auto.
  - intros Hnone. by_key. subst self. rewrite !field_get_run. cbn [name].
    rewrite !init_field. fold doc. rewrite Hnone.
    by rewrite repair_spec_fresh by done.
Qed.

(** The example of the specification: the stored value of the group is the
    list [["not", "a", "dict"]]. *)
Definition store_with (group_name : string) (doc : pyval) : pyval :=
  db_set (group_path group_name) doc (PDict ∅).

Lemma init_repairs_shape_witness :
  db_lookup (group_path "art")
    (init "art"
       (store_with "art" (PList [PStr "not"; PStr "a"; PStr "dict"]))).2
  = Some (PDict {[ "subreddits" := PList []; "comments" := PList [] ]})
  ∧ (subreddits {| name := "art" |} (init "art" (PDict ∅)).2
     = (Ok ∅, (init "art" (PDict ∅)).2)
     ∧ comments {| name := "art" |} (init "art" (PDict ∅)).2
       = (Ok ∅, (init "art" (PDict ∅)).2)).
Proof.
  split.
  - pose proof (init_repairs_shape "art"
      (store_with "art" (PList [PStr "not"; PStr "a"; PStr "dict"]))) as H.
    cbv zeta in H. destruct H as (_ & _ & _ & H & _).
    apply H. vm_compute. reflexivity.
  - pose proof (init_repairs_shape "art" (PDict ∅)) as H.
    cbv zeta in H. destruct H as (_ & _ & _ & _ & H).
    apply H. vm_compute. reflexivity.
Defined.

(** C6: when the stored document is a mapping, construction keeps every
    entry of it (the expected fields that are present and any other key) and
    adds nothing but the missing expected fields, as empty sequences. *)
Theorem init_preserves_mapping
    (group_name : string) (st : pyval) (d : gmap string pyval) :
  db_lookup (group_path group_name) st = Some (PDict d) →
  ∃ d', db_lookup (group_path group_name) (init group_name st).2
        = Some (PDict d')
    ∧ (∀ k v, d !! k = Some v → d' !! k = Some v)
    ∧ (∀ k, d !! k = None →
         d' !! k = if bool_decide (k ∈ [SUBREDDITS_LIST_KEY; COMMENTS_LIST_KEY])
                   then Some (PList []) else None).
Proof.
  intros Hdoc. exists (repair_spec (Some (PDict d))).
  rewrite init_doc, Hdoc. split; [done|].
  split; [intros k v Hk|intros k Hk]; by rewrite repair_spec_lookup, Hk.
Qed.

(** The example of the specification: the stored document is
    [{"subreddits": ["a"], "extra_key": 1}]. *)
Lemma init_preserves_mapping_witness :
  let d : gmap string pyval :=
    {[ "subreddits" := PList [PStr "a"]; "extra_key" := PInt 1 ]} in
  ∃ d', db_lookup (group_path "art") (init "art" (store_with "art" (PDict d))).2
        = Some (PDict d')
    ∧ (∀ k v, d !! k = Some v → d' !! k = Some v)
    ∧ (∀ k, d !! k = None →
         d' !! k = if bool_decide (k ∈ [SUBREDDITS_LIST_KEY; COMMENTS_LIST_KEY])
                   then Some (PList []) else None).
Proof.
  apply (init_preserves_mapping "art"). vm_compute. reflexivity.
Defined.

Example init_extra_key_example :
  db_lookup (group_path "art")
    (init "art" (store_with "art"
       (PDict {[ "subreddits" := PList [PStr "a"]; "extra_key" := PInt 1 ]}))).2
  = Some (PDict {[ "subreddits" := PList [PStr "a"]; "extra_key" := PInt 1;
                   "comments" := PList [] ]}).
Proof. vm_compute. reflexivity. Qed.

(** ** The store-shape invariant *)

Lemma is_str_seq_py_list (N : gset string) : is_str_seq (py_list N) = true.
Proof.
  unfold py_list, is_str_seq. apply forallb_forall. intros v Hv.
  apply list_elem_of_In in Hv. by apply list_elem_of_fmap in Hv as (s & -> & _).
Qed.

Lemma group_doc_field_write group_name key x st :
  db_get (group_path group_name) (db_set (field_path group_name key) x st)
  = PDict (<[key := x]>
             match db_get (group_path group_name) st with
             | PDict d => d
             | _ => ∅
             end).
Proof. unfold field_path. by rewrite db_get_set_app. Qed.

Lemma shape_ok_field_write self key N st :
  key ∈ [SUBREDDITS_LIST_KEY; COMMENTS_LIST_KEY] →
  shape_ok self st = true →
  shape_ok self
    (db_set (field_path (name self) key) (py_list N) st) = true.
Proof.
  unfold shape_ok. cbn [access_db Database.access_db path app].
  fold (group_path (name self)). intros Hkey.
  rewrite group_doc_field_write.
  destruct (db_get (group_path (name self)) st) as [| | | | | |d]; try done.
  destruct (d !! SUBREDDITS_LIST_KEY) as [a|] eqn:Ha; [|done].
  destruct (d !! COMMENTS_LIST_KEY) as [b|] eqn:Hb; [|done].
  intros [Hsa Hsb]%andb_prop.
  apply elem_of_cons in Hkey as [->|Hkey].
  - rewrite lookup_insert_eq, lookup_insert_ne, Hb by done.
    by rewrite is_str_seq_py_list.
  - apply list_elem_of_singleton in Hkey as ->.
    rewrite lookup_insert_eq, lookup_insert_ne, Ha by done.
    by rewrite is_str_seq_py_list, Hsa.
Qed.

Lemma shape_ok_field_set self key args st :
  key ∈ [SUBREDDITS_LIST_KEY; COMMENTS_LIST_KEY] →
  shape_ok self st = true → shape_ok self (field_set key self args st).2 = true.
Proof. rewrite field_set_run. apply shape_ok_field_write. Qed.

Lemma shape_ok_field_add self key args st :
  key ∈ [SUBREDDITS_LIST_KEY; COMMENTS_LIST_KEY] →
  shape_ok self st = true → shape_ok self (field_add key self args st).2 = true.
Proof.
  rewrite field_add_run. destruct (py_set _) as [Y|e]; [|done].
  apply shape_ok_field_write.
Qed.

Lemma shape_ok_field_add_single self key v st :
  key ∈ [SUBREDDITS_LIST_KEY; COMMENTS_LIST_KEY] →
  shape_ok self st = true →
  shape_ok self (field_add_single key self v st).2 = true.
Proof.
  unfold field_add_single. destruct (isinstance_str v); simpl; [|done].
  apply shape_ok_field_add.
Qed.

Lemma init_shape_ok group_name st :
  shape_ok {| name := group_name |} (init group_name st).2
  = present_fields_ok group_name st.
Proof.
  unfold shape_ok, present_fields_ok.
  cbn [access_db Database.access_db path app name].
  fold (group_path group_name). unfold db_get at 1. rewrite init_doc. simpl.
  rewrite !repair_spec_lookup. unfold db_get.
  rewrite !bool_decide_eq_true_2 by set_solver.
  destruct (db_lookup (group_path group_name) st) as [[| | | | | |d]|];
    simpl; rewrite ?lookup_empty; try done.
  by destruct (d !! SUBREDDITS_LIST_KEY), (d !! COMMENTS_LIST_KEY).
Qed.

Lemma init_fields_present group_name st :
  fields_present {| name := group_name |} (init group_name st).2 = true.
Proof.
  unfold fields_present.
  cbn [access_db Database.access_db path app name].
  fold (group_path group_name). unfold db_get. rewrite init_doc. simpl.
  rewrite !repair_spec_lookup.
  rewrite !(bool_decide_eq_true_2 (_ ∈ _)) by set_solver.
  apply andb_true_intro. split; apply bool_decide_eq_true_2;
    by destruct (_ !! _).
Qed.

(** C8, as the code has it: after construction the document of the group
    always has both fields, and they are sequences of strings exactly when
    every expected field that the stored mapping already had was one
    (construction fills missing fields and does not look at the values of
    those present); every operation then keeps the invariant. *)
Theorem store_shape_invariant (group_name : string) (st : pyval) :
  let self := {| name := group_name |} in
  fields_present self (init group_name st).2 = true
  ∧ shape_ok self (init group_name st).2 = present_fields_ok group_name st
  ∧ (present_fields_ok group_name st = true →
     shape_ok self (init group_name st).2 = true)
  ∧ ∀ (st1 : pyval) (args : list pyval) (v : pyval),
      shape_ok self st1 = true →
      shape_ok self (set_subreddits self args st1).2 = true
      ∧ shape_ok self (add_subreddits self args st1).2 = true
      ∧ shape_ok self (add_subreddit self v st1).2 = true
      ∧ shape_ok self (subreddits self st1).2 = true
      ∧ shape_ok self (set_comments self args st1).2 = true
      ∧ shape_ok self (add_comments self args st1).2 = true
      ∧ shape_ok self (add_comment self v st1).2 = true
      ∧ shape_ok self (comments self st1).2 = true.
Proof.
  intros self. subst self.
  split; [apply init_fields_present|]. split; [apply init_shape_ok|].
  split; [by rewrite init_shape_ok|].
  intros st1 args v Hok. by_key.
  assert (SUBREDDITS_LIST_KEY ∈ [SUBREDDITS_LIST_KEY; COMMENTS_LIST_KEY])
    by set_solver.
  assert (COMMENTS_LIST_KEY ∈ [SUBREDDITS_LIST_KEY; COMMENTS_LIST_KEY])
    by set_solver.
  repeat split;
    first [ by apply shape_ok_field_set | by apply shape_ok_field_add
          | by apply shape_ok_field_add_single | exact Hok ].
Qed.

Lemma store_shape_invariant_witness :
  let self := {| name := "art" |} in
  let st1 := (init "art" (PDict ∅)).2 in
  shape_ok self st1 = true
  ∧ shape_ok self (set_subreddits self [PStr "doodles"; PInt 3] st1).2 = true
  ∧ shape_ok self (add_comment self (PStr "nice") st1).2 = true.
Proof.
  pose proof (store_shape_invariant "art" (PDict ∅)) as H.
  cbv zeta in *. destruct H as (_ & _ & Hinit & Hops).
  assert (Hok : shape_ok {| name := "art" |} (init "art" (PDict ∅)).2 = true).
  { apply Hinit. vm_compute. reflexivity. }
  split; [exact Hok|].
  destruct (Hops (init "art" (PDict ∅)).2 [PStr "doodles"; PInt 3]
              (PStr "nice") Hok) as (Hset & _ & _ & _ & _ & _ & Hadd & _).
  split; [exact Hset|exact Hadd].
Defined.

(** A stored document whose [subreddits] field is the number 5. *)
Definition store_with_bad_field : pyval :=
  store_with "art" (PDict {[ "subreddits" := PInt 5 ]}).

(** C8 as the specification states it fails: construction over that document
    leaves the field as it is, so the invariant does not hold afterwards and
    the getter raises. *)
Lemma store_shape_invariant_counterexample :
  let self := {| name := "art" |} in
  let st' := (init "art" store_with_bad_field).2 in
  shape_ok self st' = false
  ∧ db_get (field_path "art" "subreddits") st' = PInt 5
  ∧ subreddits self st' = (Raise TypeError, st').
Proof.
  cbv zeta.
  assert (Hfield : db_get (field_path "art" "subreddits")
                     (init "art" store_with_bad_field).2 = PInt 5)
    by (vm_compute; reflexivity).
  split; [vm_compute; reflexivity|]. split; [exact Hfield|].
  by_key. rewrite field_get_run. cbn [name].
  unfold SUBREDDITS_LIST_KEY. by rewrite Hfield.
Qed.

(** ** Adding to a field *)



(** The example of the specification: the stored feeds are [{"x"}], and the
    call is [add_feeds("y", "y", ["z"])]. *)
Definition store_with_feed_x : pyval :=
  store_with "art"
    (PDict {[ "subreddits" := PList [PStr "x"]; "comments" := PList [] ]}).


Example add_feeds_example :
  let self := {| name := "art" |} in
  let args := [PStr "y"; PStr "y"; PList [PStr "z"]] in
  (subreddits self store_with_feed_x).1 = Ok (py_strs {[ "x" ]})
  ∧ (subreddits self (add_subreddits self args store_with_feed_x).2).1
    = Ok (py_strs {[ "x"; "y"; "z" ]}).
Proof.
  cbv zeta.
  assert (Hfield : db_get (field_path "art" SUBREDDITS_LIST_KEY)
                     store_with_feed_x = PList (PStr <$> ["x"]))
    by (vm_compute; reflexivity).
  by_key. rewrite field_add_run, !field_get_run. cbn [name].
  rewrite Hfield, py_set_str_list, flat_strs_py_strs. cbn [fst snd].
  rewrite db_get_set_same, py_set_py_list.
  split; do 2 f_equal; unfold str_leaves; simpl; set_solver.
Qed.

(** ** Adding one item *)





(** ** Field isolation *)

(** From [st] to [st'] nothing but the field [key] of the group was written:
    every path that parts ways with the path of the field reads as before;
    in particular every other key of the group's document, and every other
    group's document, with all that lies below them. *)
Definition only_field_written
    (group_name key : string) (st st' : pyval) : Prop :=
  (∀ q, diverge (field_path group_name key) q →
        db_lookup q st' = db_lookup q st)
  ∧ (∀ k q, k ≠ key →
        db_lookup (group_path group_name ++ k :: q) st'
        = db_lookup (group_path group_name ++ k :: q) st)
  ∧ (∀ other q, other ≠ group_name →
        db_lookup (group_path other ++ q) st'
        = db_lookup (group_path other ++ q) st).

Lemma only_field_written_refl group_name key st :
  only_field_written group_name key st st.
Proof. done. Qed.

Lemma only_field_written_set group_name key x st :
  only_field_written group_name key st
    (db_set (field_path group_name key) x st).
Proof.
  split; [|split].
  - intros q Hq. by apply db_lookup_set_diverge.
  - intros k q Hk. apply db_lookup_set_diverge.
    by exists (group_path group_name), key, k, [], q.
  - intros other q Hother. apply db_lookup_set_diverge.
    by apply diverge_group.
Qed.

Lemma field_set_isolated key self args st :
  only_field_written (name self) key st (field_set key self args st).2.
Proof. rewrite field_set_run. apply only_field_written_set. Qed.

Lemma field_add_isolated key self args st :
  only_field_written (name self) key st (field_add key self args st).2.
Proof.
  rewrite field_add_run. destruct (py_set _) as [Y|e].
  - apply only_field_written_set.
  - apply only_field_written_refl.
Qed.

Lemma field_add_single_isolated key self v st :
  only_field_written (name self) key st (field_add_single key self v st).2.
Proof.
  unfold field_add_single. destruct (isinstance_str v); simpl.
  - apply field_add_isolated.
  - apply only_field_written_refl.
Qed.

Lemma field_get_other key key' self st st' :
  key' ≠ key →
  only_field_written (name self) key st st' →
  (field_get key' self st').1 = (field_get key' self st).1.
Proof.
  intros Hne (_ & Hkeys & _). rewrite !field_get_run. simpl.
  unfold db_get, field_path. by rewrite (Hkeys key' []).
Qed.

(** C10: each of [set_subreddits], [add_subreddits] and [add_subreddit]
    writes nothing but the field [subreddits] of its group: the field
    [comments], every other key of the group's document and every other
    group's document stay as they were, and so does everything else in the
    database; likewise each of [set_comments], [add_comments] and
    [add_comment] writes nothing but the field [comments]. *)
Theorem field_isolation
    (self : t) (args : list pyval) (v : pyval) (st : pyval) :
  (only_field_written (name self) SUBREDDITS_LIST_KEY st
     (set_subreddits self args st).2
   ∧ only_field_written (name self) SUBREDDITS_LIST_KEY st
       (add_subreddits self args st).2
   ∧ only_field_written (name self) SUBREDDITS_LIST_KEY st
       (add_subreddit self v st).2)
  ∧ (only_field_written (name self) COMMENTS_LIST_KEY st
       (set_comments self args st).2
     ∧ only_field_written (name self) COMMENTS_LIST_KEY st
         (add_comments self args st).2
     ∧ only_field_written (name self) COMMENTS_LIST_KEY st
         (add_comment self v st).2)
  ∧ ((comments self (set_subreddits self args st).2).1 = (comments self st).1
     ∧ (comments self (add_subreddits self args st).2).1 = (comments self st).1
     ∧ (comments self (add_subreddit self v st).2).1 = (comments self st).1)
  ∧ ((subreddits self (set_comments self args st).2).1 = (subreddits self st).1
     ∧ (subreddits self (add_comments self args st).2).1
       = (subreddits self st).1
     ∧ (subreddits self (add_comment self v st).2).1 = (subreddits self st).1).
Proof.
  by_key.
  pose proof (field_set_isolated SUBREDDITS_LIST_KEY self args st) as Hs1.
  pose proof (field_add_isolated SUBREDDITS_LIST_KEY self args st) as Hs2.
  pose proof (field_add_single_isolated SUBREDDITS_LIST_KEY self v st) as Hs3.
  pose proof (field_set_isolated COMMENTS_LIST_KEY self args st) as Hc1.
  pose proof (field_add_isolated COMMENTS_LIST_KEY self args st) as Hc2.
  pose proof (field_add_single_isolated COMMENTS_LIST_KEY self v st) as Hc3.
  split; [done|]. split; [done|].
  split; (split; [|split]).
  1-3: by apply (field_get_other SUBREDDITS_LIST_KEY).
  all: by apply (field_get_other COMMENTS_LIST_KEY).
Qed.

(** Two groups and an unrelated entry: writing the feeds of one group leaves
    its comments, its other keys, the other group and the entry alone. *)
Definition store_two_groups : pyval :=
  db_set ["settings"] (PInt 7)
    (db_set (group_path "tech")
       (PDict {[ "subreddits" := PList [PStr "linux"];
                 "comments" := PList [PStr "neat"] ]})
       (store_with "art"
          (PDict {[ "subreddits" := PList [PStr "doodles"];
                    "comments" := PList [PStr "nice"];
                    "extra_key" := PInt 1 ]}))).

Example field_isolation_example :
  let st' := (set_subreddits {| name := "art" |} [PStr "sketches"]
                store_two_groups).2 in
  db_lookup (field_path "art" "subreddits") st' = Some (PList [PStr "sketches"])
  ∧ db_lookup (field_path "art" "comments") st' = Some (PList [PStr "nice"])
  ∧ db_lookup (field_path "art" "extra_key") st' = Some (PInt 1)
  ∧ db_lookup (group_path "tech") st'
    = db_lookup (group_path "tech") store_two_groups
  ∧ db_lookup ["settings"] st' = Some (PInt 7).
Proof. cbv zeta. repeat split; vm_compute; reflexivity. Qed.

(** * Further properties of the class *)

(** ** The coercion: order, multiplicity and the kind of collection *)

Lemma str_leaves_app (a b : list pyval) :
  str_leaves (PTuple (a ++ b))
  = str_leaves (PTuple a) ∪ str_leaves (PTuple b).
Proof.
  unfold str_leaves. simpl.
  by rewrite bind_app, omap_app, list_to_set_app_L.
Qed.

Lemma normalize_str_args_kind (l : list pyval) :
  normalize_str_args (PList l) = normalize_str_args (PTuple l)
  ∧ normalize_str_args (PSet l) = normalize_str_args (PTuple l).
Proof. done. Qed.

(** X1: normalizing the concatenation of two argument tuples gives the
    union of their normalizations, and a list, a set and a tuple with the
    same items normalize to the same set. *)
Theorem normalize_str_args_app (a b : list pyval) :
  normalize_str_args (PTuple (a ++ b))
  = normalize_str_args (PTuple a) ∪ normalize_str_args (PTuple b)
  ∧ normalize_str_args (PList (a ++ b)) = normalize_str_args (PTuple (a ++ b))
  ∧ normalize_str_args (PSet (a ++ b)) = normalize_str_args (PTuple (a ++ b)).
Proof.
  split; [|done]. rewrite !normalize_str_args_leaves. apply str_leaves_app.
Qed.

Lemma elem_of_normalize_collection (l : list pyval) s :
  s ∈ normalize_str_args (PTuple l) ↔ ∃ x, x ∈ l ∧ s ∈ normalize_str_args x.
Proof.
  rewrite (normalize_str_args_unfold (PTuple l)), elem_of_union_list. split.
  - intros (X & HX & Hs). apply list_elem_of_fmap in HX as (x & -> & Hx).
    eauto.
  - intros (x & Hx & Hs). exists (normalize_str_args x). split; [|done].
    apply list_elem_of_fmap. eauto.
Qed.

(** X2: the result depends on the items of a collection only as a set: two
    argument tuples with the same items, in any order and any number of
    times, normalize to the same set. *)
Theorem normalize_str_args_same_items (l1 l2 : list pyval) :
  (∀ x, x ∈ l1 ↔ x ∈ l2) →
  normalize_str_args (PTuple l1) = normalize_str_args (PTuple l2).
Proof.
  intros Hitems. apply set_eq. intros s.
  rewrite !elem_of_normalize_collection. by setoid_rewrite Hitems.
Qed.

Lemma normalize_str_args_same_items_witness :
  normalize_str_args (PTuple [PStr "a"; PList [PStr "b"]; PStr "a"; PInt 1])
  = normalize_str_args (PTuple [PInt 1; PList [PStr "b"]; PStr "a"]).
Proof.
  apply normalize_str_args_same_items. intros x.
  rewrite !elem_of_cons, !elem_of_nil. tauto.
Defined.

(** ** The database: writing twice *)

Lemma db_set_set_same p x y v : db_set p x (db_set p y v) = db_set p x v.
Proof.
  revert v. induction p as [|k p IH]; intros v; [done|].
  unfold db_set; fold db_set. simpl.
  by rewrite lookup_insert_eq, insert_insert_eq; simpl; rewrite IH.
Qed.

Lemma db_set_commute_head k1 k2 p q x y v :
  k1 ≠ k2 →
  db_set (k1 :: p) x (db_set (k2 :: q) y v)
  = db_set (k2 :: q) y (db_set (k1 :: p) x v).
Proof.
  intros Hne. unfold db_set; fold db_set. simpl.
  rewrite !lookup_insert_ne by done. f_equal. by apply insert_insert_ne.
Qed.

Lemma db_set_commute p q x y v :
  diverge p q → db_set p x (db_set q y v) = db_set q y (db_set p x v).
Proof.
  intros (r & k1 & k2 & p' & q' & Hne & -> & ->).
  revert v. induction r as [|k r IH]; intros v.
  - by apply db_set_commute_head.
  - rewrite <-!app_comm_cons. unfold db_set; fold db_set. simpl.
    rewrite !lookup_insert_eq, !insert_insert_eq. simpl. by rewrite IH.
Qed.

Lemma db_set_lookup_id p x v : db_lookup p v = Some x → db_set p x v = v.
Proof.
  revert v. induction p as [|k p IH]; intros v.
  - unfold db_lookup. by intros [= ->].
  - unfold db_lookup; fold db_lookup. destruct v as [| | | | | |d]; try done.
    destruct (d !! k) as [c|] eqn:Hk; [|done]. simpl. intros Hc.
    unfold db_set; fold db_set. simpl.
    rewrite Hk. simpl. rewrite (IH _ Hc). by rewrite insert_id.
Qed.

(** ** How the methods of a field compose *)

Lemma py_seq_run {A B} (m : Py A) (k : Py B) st :
  (m ;; k) st =
    match m st with
    | (Ok _, st') => k st'
    | (Raise e, st') => (Raise e, st')
    end.
Proof. done. Qed.

Lemma field_set_set key self a b st :
  (field_set key self a ;; field_set key self b) st = field_set key self b st.
Proof.
  rewrite py_seq_run, !field_set_run. by rewrite db_set_set_same.
Qed.




(** X3: a setter overwrites: setting a field twice leaves the database as
    the second call alone does, whatever the first call stored. *)
Theorem set_twice_last_wins (self : t) (a b : list pyval) (st : pyval) :
  (set_subreddits self a ;; set_subreddits self b) st
  = set_subreddits self b st
  ∧ (set_comments self a ;; set_comments self b) st = set_comments self b st.
Proof. by_key. by rewrite !field_set_set. Qed.




(** X7: an addition that cannot read the field raises what the getter
    raises and writes nothing; otherwise it returns normally. *)
Theorem add_fails_as_getter (self : t) (args : list pyval) (st : pyval) :
  match (subreddits self st).1 with
  | Raise e => add_subreddits self args st = (Raise e, st)
  | Ok _ => (add_subreddits self args st).1 = Ok ()
  end
  ∧ match (comments self st).1 with
    | Raise e => add_comments self args st = (Raise e, st)
    | Ok _ => (add_comments self args st).1 = Ok ()
    end.
Proof.
  by_key. rewrite !field_add_run, !field_get_run. simpl.
  split; by destruct (py_set _).
Qed.

Lemma field_written_nodup key self N st :
  ∃ ls, db_get (field_path (name self) key)
          (db_set (field_path (name self) key) (py_list N) st)
        = PList (PStr <$> ls)
     ∧ NoDup ls ∧ list_to_set ls = N.
Proof.
  exists (elements N). rewrite db_get_set_same. split; [done|].
  split; [apply NoDup_elements|apply list_to_set_elements_L].
Qed.

(** X8: whatever the field held before, after a setter it holds a list of
    strings without duplicates, the string leaves of the arguments. *)
Theorem set_stores_distinct_strings (self : t) (args : list pyval) (st : pyval) :
  (∃ ls, db_get (field_path (name self) SUBREDDITS_LIST_KEY)
           (set_subreddits self args st).2 = PList (PStr <$> ls)
      ∧ NoDup ls ∧ list_to_set ls = str_leaves (PTuple args))
  ∧ (∃ ls, db_get (field_path (name self) COMMENTS_LIST_KEY)
             (set_comments self args st).2 = PList (PStr <$> ls)
        ∧ NoDup ls ∧ list_to_set ls = str_leaves (PTuple args)).
Proof.
  by_key. rewrite !field_set_run. split; apply field_written_nodup.
Qed.

Lemma field_add_readable key self args st Y :
  field_get key self st = (Ok Y, st) →
  field_get key self (field_add key self args st).2
  = (Ok (py_strs (flat_strs Y ∪ str_leaves (PTuple args))),
     (field_add key self args st).2)
  ∧ ∃ ls, db_get (field_path (name self) key) (field_add key self args st).2
          = PList (PStr <$> ls)
       ∧ NoDup ls
       ∧ list_to_set ls = flat_strs Y ∪ str_leaves (PTuple args).
Proof.
  rewrite field_get_run. intros [= HY]. rewrite field_add_run, HY. simpl.
  split; [|apply field_written_nodup].
  by rewrite field_get_run, db_get_set_same, py_set_py_list.
Qed.

(** X9: when the getter returns a set [Y] (the field may hold members that
    are not strings), an addition stores a list of distinct strings: the
    strings that flattening the members of [Y] yields, and the string leaves
    of the arguments.  Members of [Y] that are not strings are gone. *)
Theorem add_on_readable_field
    (self : t) (args : list pyval) (st : pyval) (Y : gset pyval) :
  (subreddits self st = (Ok Y, st) →
   subreddits self (add_subreddits self args st).2
   = (Ok (py_strs (flat_strs Y ∪ str_leaves (PTuple args))),
      (add_subreddits self args st).2)
   ∧ ∃ ls, db_get (field_path (name self) SUBREDDITS_LIST_KEY)
             (add_subreddits self args st).2 = PList (PStr <$> ls)
        ∧ NoDup ls
        ∧ list_to_set ls = flat_strs Y ∪ str_leaves (PTuple args))
  ∧ (comments self st = (Ok Y, st) →
     comments self (add_comments self args st).2
     = (Ok (py_strs (flat_strs Y ∪ str_leaves (PTuple args))),
        (add_comments self args st).2)
     ∧ ∃ ls, db_get (field_path (name self) COMMENTS_LIST_KEY)
               (add_comments self args st).2 = PList (PStr <$> ls)
          ∧ NoDup ls
          ∧ list_to_set ls = flat_strs Y ∪ str_leaves (PTuple args)).
Proof. by_key. split; apply field_add_readable. Qed.

(** A stored field with a number and a tuple among its members. *)
Definition store_with_mixed_field : pyval :=
  store_with "art"
    (PDict {[ "subreddits" := PList [PInt 1; PStr "x"; PTuple [PStr "q"]];
              "comments" := PList [] ]}).

Lemma add_on_readable_field_witness :
  let self := {| name := "art" |} in
  let Y : gset pyval := list_to_set [PInt 1; PStr "x"; PTuple [PStr "q"]] in
  subreddits self (add_subreddits self [PStr "y"] store_with_mixed_field).2
  = (Ok (py_strs (flat_strs Y ∪ str_leaves (PTuple [PStr "y"]))),
     (add_subreddits self [PStr "y"] store_with_mixed_field).2)
  ∧ ∃ ls, db_get (field_path (name self) SUBREDDITS_LIST_KEY)
            (add_subreddits self [PStr "y"] store_with_mixed_field).2
          = PList (PStr <$> ls)
       ∧ NoDup ls
       ∧ list_to_set ls = flat_strs Y ∪ str_leaves (PTuple [PStr "y"]).
Proof.
  cbv zeta.
  apply (proj1 (add_on_readable_field {| name := "art" |} [PStr "y"]
                  store_with_mixed_field _)).
  by_key. rewrite field_get_run. cbn [name].
  assert (db_get (field_path "art" SUBREDDITS_LIST_KEY) store_with_mixed_field
          = PList [PInt 1; PStr "x"; PTuple [PStr "q"]]) as ->
    by (vm_compute; reflexivity).
  reflexivity.
Defined.

(** ** Methods of different fields and of different groups *)

Lemma field_set_commute key1 key2 self1 self2 a b st :
  diverge (field_path (name self1) key1) (field_path (name self2) key2) →
  (field_set key1 self1 a ;; field_set key2 self2 b) st
  = (field_set key2 self2 b ;; field_set key1 self1 a) st.
Proof.
  intros Hd. rewrite !py_seq_run, !field_set_run. simpl. f_equal.
  symmetry. by apply db_set_commute.
Qed.

Lemma diverge_sym p q : diverge p q → diverge q p.
Proof.
  intros (r & k1 & k2 & p' & q' & Hne & -> & ->).
  by exists r, k2, k1, q', p'.
Qed.

(** X10: the setters of the two fields of a group commute: the database is
    the same whichever of [set_subreddits] and [set_comments] runs first. *)
Theorem setters_of_two_fields_commute
    (self : t) (a b : list pyval) (st : pyval) :
  (set_subreddits self a ;; set_comments self b) st
  = (set_comments self b ;; set_subreddits self a) st.
Proof.
  by_key. apply field_set_commute. by apply diverge_last.
Qed.

(** X11: the setters of two groups with different names commute, for any
    pair of fields. *)
Theorem setters_of_two_groups_commute
    (self1 self2 : t) (a b : list pyval) (st : pyval) :
  name self1 ≠ name self2 →
  (set_subreddits self1 a ;; set_subreddits self2 b) st
  = (set_subreddits self2 b ;; set_subreddits self1 a) st
  ∧ (set_subreddits self1 a ;; set_comments self2 b) st
    = (set_comments self2 b ;; set_subreddits self1 a) st
  ∧ (set_comments self1 a ;; set_comments self2 b) st
    = (set_comments self2 b ;; set_comments self1 a) st.
Proof.
  intros Hne. by_key.
  repeat split; apply field_set_commute;
    by apply (diverge_group _ _ _ [_]).
Qed.

Lemma setters_of_two_groups_commute_witness :
  let art := {| name := "art" |} in
  let tech := {| name := "tech" |} in
  (set_subreddits art [PStr "doodles"] ;; set_subreddits tech [PStr "linux"])
    (PDict ∅)
  = (set_subreddits tech [PStr "linux"] ;; set_subreddits art [PStr "doodles"])
      (PDict ∅)
  ∧ (set_subreddits art [PStr "doodles"] ;; set_comments tech [PStr "linux"])
      (PDict ∅)
    = (set_comments tech [PStr "linux"] ;; set_subreddits art [PStr "doodles"])
        (PDict ∅)
  ∧ (set_comments art [PStr "doodles"] ;; set_comments tech [PStr "linux"])
      (PDict ∅)
    = (set_comments tech [PStr "linux"] ;; set_comments art [PStr "doodles"])
        (PDict ∅).
Proof.
  cbv zeta.
  apply (setters_of_two_groups_commute {| name := "art" |} {| name := "tech" |}).
  done.
Defined.

(** ** Construction, again *)

Lemma repair_spec_idem doc :
  repair_spec (Some (PDict (repair_spec doc))) = repair_spec doc.
Proof.
  apply map_eq. intros k. rewrite repair_spec_lookup.
  destruct (repair_spec doc !! k) as [v|] eqn:Hk; [done|].
  rewrite repair_spec_lookup in Hk.
  destruct (_ !! k); [done|]. by destruct (bool_decide _).
Qed.

Lemma repair_spec_present (d : gmap string pyval) :
  is_Some (d !! SUBREDDITS_LIST_KEY) → is_Some (d !! COMMENTS_LIST_KEY) →
  repair_spec (Some (PDict d)) = d.
Proof.
  intros [a Ha] [b Hb]. apply map_eq. intros k. rewrite repair_spec_lookup.
  destruct (d !! k) as [v|] eqn:Hk; [done|].
  rewrite bool_decide_eq_false_2; [done|].
  rewrite !elem_of_cons, elem_of_nil. intros [->|[->|[]]]; congruence.
Qed.

(** X12: construction is idempotent: constructing the instance of a group a
    second time gives the same instance and leaves the database as the first
    construction left it. *)
Theorem init_idempotent (group_name : string) (st : pyval) :
  (init group_name ;; init group_name) st = init group_name st.
Proof.
  rewrite py_seq_run, !init_run. rewrite db_lookup_set_same.
  by rewrite repair_spec_idem, db_set_set_same.
Qed.

(** X13: when the document of the group is a mapping that has both fields,
    whatever their values, construction leaves the whole database exactly
    as it is. *)
Theorem init_unchanged_when_present (group_name : string) (st : pyval) :
  fields_present {| name := group_name |} st = true →
  init group_name st = (Ok {| name := group_name |}, st).
Proof.
  unfold fields_present. cbn [access_db Database.access_db path app name].
  fold (group_path group_name). unfold db_get. intros Hdoc.
  rewrite init_run.
  destruct (db_lookup (group_path group_name) st) as [[| | | | | |d]|] eqn:Hd;
    try done.
  simpl in Hdoc. apply andb_prop in Hdoc as [Hs Hc].
  apply bool_decide_eq_true_1 in Hs. apply bool_decide_eq_true_1 in Hc.
  rewrite repair_spec_present by done. by rewrite db_set_lookup_id.
Qed.

Lemma init_unchanged_when_present_witness :
  init "art" store_with_bad_field
  = (Ok {| name := "art" |},
     db_set (group_path "art")
       (PDict {[ "subreddits" := PInt 5; "comments" := PList [] ]})
       (PDict ∅))
  ∧ init "art" (init "art" store_with_bad_field).2
    = (Ok {| name := "art" |}, (init "art" store_with_bad_field).2).
Proof.
  split; [vm_compute; reflexivity|].
  apply init_unchanged_when_present. vm_compute. reflexivity.
Defined.

(** X14: construction writes nothing but the document of its group: every
    path that parts ways with the path of the document reads as before, so
    the documents of all other groups are untouched. *)
Theorem init_writes_only_own_document
    (group_name : string) (st : pyval) (q : list string) :
  diverge (group_path group_name) q →
  db_lookup q (init group_name st).2 = db_lookup q st.
Proof.
  intros Hq. rewrite init_run. simpl. by apply db_lookup_set_diverge.
Qed.

Lemma init_writes_only_own_document_witness :
  db_lookup (group_path "tech") (init "music" store_two_groups).2
  = db_lookup (group_path "tech") store_two_groups.
Proof.
  apply init_writes_only_own_document.
  by exists ["subreddits"; "groups"], "music", "tech", [], [].
Defined.

(** X15: a field that the stored document does not have (the document is
    absent, is not a mapping, or lacks the key) reads as the empty set right
    after construction. *)
Theorem init_missing_field_reads_empty (group_name : string) (st : pyval) :
  (db_lookup (field_path group_name SUBREDDITS_LIST_KEY) st = None →
   subreddits {| name := group_name |} (init group_name st).2
   = (Ok ∅, (init group_name st).2))
  ∧ (db_lookup (field_path group_name COMMENTS_LIST_KEY) st = None →
     comments {| name := group_name |} (init group_name st).2
     = (Ok ∅, (init group_name st).2)).
Proof.
  by_key.
  assert (Hkey : ∀ key, key ∈ [SUBREDDITS_LIST_KEY; COMMENTS_LIST_KEY] →
    db_lookup (field_path group_name key) st = None →
    field_get key {| name := group_name |} (init group_name st).2
    = (Ok ∅, (init group_name st).2)).
  { intros key Hkey Hnone. rewrite field_get_run. cbn [name].
    rewrite init_field, repair_spec_lookup.
    unfold field_path in Hnone. rewrite db_lookup_app in Hnone.
    assert (match db_lookup (group_path group_name) st with
            | Some (PDict d) => d | _ => ∅ end !! key = None) as ->.
    { destruct (db_lookup (group_path group_name) st)
        as [[| | | | | |d]|]; try done.
      simpl in Hnone. unfold db_lookup in Hnone.
      by destruct (d !! key). }
    by rewrite bool_decide_eq_true_2. }
  split; apply Hkey; set_solver.
Qed.

Lemma init_missing_field_reads_empty_witness :
  let st := store_with "art" (PDict {[ "comments" := PList [PStr "hi"] ]}) in
  subreddits {| name := "art" |} (init "art" st).2
  = (Ok ∅, (init "art" st).2).
Proof.
  cbv zeta.
  apply (proj1 (init_missing_field_reads_empty "art" _)).
  vm_compute. reflexivity.
Defined.
